(** * interpose_uname.c: an interposing [uname] that delegates to the original

    A shallow embedding of
    [2012-06-02 - Interposing dynamic library calls/interpose_uname.c].
    The C function is written in a small state-and-exit monad over the
    process state (the function-static slot [original], the memory the
    caller's [struct utsname] lives in, and the trace of externally visible
    actions).  What the C file takes from the host (the dynamic loader and
    the code reached through a function pointer) is a record of functions. *)

From Stdlib Require Import ZArith List String Ascii Strings.Byte Bool Lia.
Import ListNotations.
Local Open Scope Z_scope.

(* ================================================================= *)
(** ** Memory and the layout of [struct utsname] *)

(** A pointer is an address; [NULL] is address zero. *)
Definition ptr := Z.
Definition NULL : ptr := 0.

(** Byte-addressed memory. *)
Definition mem := ptr -> byte.

Definition store (m : mem) (a : ptr) (b : byte) : mem :=
  fun a' => if a' =? a then b else m a'.

(** The layout the source quotes from <sys/utsname.h>:

      #define  _SYS_NAMELEN   256
      struct utsname {
         char sysname[_SYS_NAMELEN];  char nodename[_SYS_NAMELEN];
         char release[_SYS_NAMELEN];  char version[_SYS_NAMELEN];
         char machine[_SYS_NAMELEN];
      };                                                              *)
Definition _SYS_NAMELEN : nat := 256.

Inductive field := sysname | nodename | release | version | machine.

Definition field_index (f : field) : Z :=
  match f with
  | sysname => 0 | nodename => 1 | release => 2 | version => 3 | machine => 4
  end.

Definition offsetof (f : field) : Z := field_index f * Z.of_nat _SYS_NAMELEN.

(** [sizeof(name->f)]: every member is a [char[_SYS_NAMELEN]]. *)
Definition sizeof_field (f : field) : nat := _SYS_NAMELEN.

(** [&name->f], and [name->f[i]] read from a memory. *)
Definition field_addr (name : ptr) (f : field) : ptr := name + offsetof f.

Definition field_byte (m : mem) (name : ptr) (f : field) (i : nat) : byte :=
  m (field_addr name f + Z.of_nat i).

(** The first [n] bytes stored from address [a] on. *)
Fixpoint read_bytes (m : mem) (a : ptr) (n : nat) : list byte :=
  match n with
  | O => []
  | S n' => m a :: read_bytes m (a + 1) n'
  end.

(* ================================================================= *)
(** ** C strings and [strncpy] *)

(** The array a string literal denotes: its characters and the terminator. *)
Definition c_literal (s : string) : list byte :=
  list_byte_of_string s ++ [x00].

(** [strncpy(dest, src, n)]: exactly [n] bytes are written from [dest] on;
    the bytes of [src] up to its terminator (or the first [n] of them), then
    null bytes for the rest.  [src] is the array read from. *)
Fixpoint strncpy (m : mem) (dest : ptr) (src : list byte) (n : nat) : mem :=
  match n with
  | O => m
  | S n' =>
      match src with
      | c :: src' =>
          if Byte.eqb c x00
          then strncpy (store m dest x00) (dest + 1) [] n'
          else strncpy (store m dest c) (dest + 1) src' n'
      | [] => strncpy (store m dest x00) (dest + 1) [] n'
      end
  end.

(** [printf(fmt, arg)] for a format with [%s] conversions of one argument. *)
Fixpoint format_s (fmt : string) (arg : string) : string :=
  match fmt with
  | EmptyString => EmptyString
  | String "%" (String "s" rest) => arg ++ format_s rest arg
  | String c rest => String c (format_s rest arg)
  end.

Definition newline : string := String "010" EmptyString.

(* ================================================================= *)
(** ** The host: loader interface and indirect calls *)

(** A shared object as the loader sees it: its name and the symbols it
    exports with their addresses. *)
Record library := { soname : string; symbols : list (string * ptr) }.

(** What <dlfcn.h> calls a handle: the null handle, the pseudo-handle
    [RTLD_NEXT], or a library opened by [dlopen]. *)
Inductive handle :=
| NULL_handle
| RTLD_NEXT
| Opened (lib : library).

(** The [dlopen] mode [RTLD_NOW] (immediate binding); 2 on Linux and OS X. *)
Definition RTLD_NOW : Z := 2.

(** The branch of [#ifdef __APPLE__] that was compiled. *)
Inductive platform := Apple | Linux.

Record host := {
  os : platform;
  (** [dlopen(path, mode)] *)
  host_dlopen : string -> Z -> handle;
  (** [dlsym(handle, symbol)], asked from the interposing module *)
  host_dlsym : handle -> string -> ptr;
  (** the code behind a function pointer of type [func_t]: from the
      argument and the memory to the status and the memory it leaves *)
  host_call : ptr -> ptr -> mem -> Z * mem
}.

(* ================================================================= *)
(** ** Process state, visible actions, and the monad the code runs in *)

Inductive stream := stdout | stderr.

Inductive event :=
| EvDlopen (path : string) (mode : Z)
| EvDlsym (h : handle) (symbol : string)
| EvWrite (s : stream) (text : string)
| EvCall (f : ptr) (arg : ptr).

Record process := {
  original : ptr;        (** [static func_t original] *)
  memory : mem;
  trace : list event     (** oldest action first *)
}.

(** The slot is initialised to [NULL] when the module is loaded. *)
Definition process_start (m : mem) : process :=
  {| original := NULL; memory := m; trace := [] |}.

(** A computation either returns a value or ends the process by [exit]. *)
Inductive outcome (A : Type) :=
| Returned (a : A) (st : process)
| Exited (status : Z) (st : process).
Arguments Returned {A} a st.
Arguments Exited {A} status st.

Definition M (A : Type) := process -> outcome A.

Definition ret {A} (a : A) : M A := fun st => Returned a st.

Definition bind {A B} (c : M A) (k : A -> M B) : M B :=
  fun st =>
    match c st with
    | Returned a st' => k a st'
    | Exited status st' => Exited status st'
    end.

Declare Scope interp_scope.
Delimit Scope interp_scope with interp.
Notation "x <- c ;; k" := (bind c (fun x => k))
  (at level 61, c at next level, right associativity) : interp_scope.
Notation "c ;; k" := (bind c (fun _ => k))
  (at level 61, right associativity) : interp_scope.

Definition log (e : event) : M unit :=
  fun st => Returned tt {| original := original st; memory := memory st;
                           trace := trace st ++ [e] |}.

Definition get_original : M ptr := fun st => Returned (original st) st.

Definition set_original (p : ptr) : M unit :=
  fun st => Returned tt {| original := p; memory := memory st;
                           trace := trace st |}.

Definition exit {A} (status : Z) : M A := fun st => Exited status st.

(** [printf] writes to the standard output stream. *)
Definition printf (fmt arg : string) : M unit :=
  log (EvWrite stdout (format_s fmt arg)).

Definition strncpy_at (dest : ptr) (src : list byte) (n : nat) : M unit :=
  fun st => Returned tt {| original := original st;
                           memory := strncpy (memory st) dest src n;
                           trace := trace st |}.

Section Interposer.

Variable H : host.

Definition dlopen (path : string) (mode : Z) : M handle :=
  (log (EvDlopen path mode) ;; ret (host_dlopen H path mode))%interp.

Definition dlsym (h : handle) (symbol : string) : M ptr :=
  (log (EvDlsym h symbol) ;; ret (host_dlsym H h symbol))%interp.

(** [f(arg)] for a function pointer [f]. *)
Definition call (f : ptr) (arg : ptr) : M Z :=
  fun st =>
    let (result, m') := host_call H f arg (memory st) in
    Returned result {| original := original st; memory := m';
                       trace := trace st ++ [EvCall f arg] |}.

(** [__func__] inside [uname]. *)
Definition __func__ : string := "uname".

(** The body of [if(original == NULL) { ... }]. *)
Definition resolve : M unit :=
  (match os H with
   | Apple =>
       handle <- dlopen "libc.dylib" RTLD_NOW ;;
       p <- dlsym handle __func__ ;;
       set_original p
   | Linux =>
       p <- dlsym RTLD_NEXT __func__ ;;
       set_original p
   end ;;
   p <- get_original ;;
   if p =? NULL
   then
     printf ("ERROR: Failed to locate original %s() function; exiting"
             ++ newline) __func__ ;;
     exit 1
   else ret tt)%interp.

(** [int uname(struct utsname *name)] *)
Definition uname (name : ptr) : M Z :=
  (p <- get_original ;;
   (if p =? NULL then resolve else ret tt) ;;
   f <- get_original ;;
   result <- call f name ;;
   (if result =? 0
    then strncpy_at (field_addr name version) (c_literal "Johnny 5")
                    (sizeof_field version)
    else ret tt) ;;
   ret result)%interp.

(** Successive calls of [uname] in one process; the statuses returned,
    until a call exits. *)
Fixpoint uname_calls (names : list ptr) : M (list Z) :=
  match names with
  | [] => ret []
  | name :: rest =>
      (r <- uname name ;;
       rs <- uname_calls rest ;;
       ret (r :: rs))%interp
  end.

End Interposer.

Definition state_of {A} (o : outcome A) : process :=
  match o with
  | Returned _ st => st
  | Exited _ st => st
  end.

(* ================================================================= *)
(** ** The host loader

    The loader is not part of the repository; it is modelled from the
    specification's two loader conventions and the source's comments.  The
    process image is the list of loaded shared objects in symbol search
    order, the interposing module among them; [dlsym] is asked from the
    interposing module. *)

Fixpoint lookup_symbol (symbol : string) (syms : list (string * ptr))
  : option ptr :=
  match syms with
  | [] => None
  | (s, a) :: rest =>
      if String.eqb s symbol then Some a else lookup_symbol symbol rest
  end.

(** The first definition of [symbol] along [libs]; [NULL] when there is none. *)
Fixpoint first_definition (symbol : string) (libs : list library) : ptr :=
  match libs with
  | [] => NULL
  | l :: rest =>
      match lookup_symbol symbol (symbols l) with
      | Some a => a
      | None => first_definition symbol rest
      end
  end.

Fixpoint find_library (path : string) (libs : list library) : option library :=
  match libs with
  | [] => None
  | l :: rest =>
      if String.eqb (soname l) path then Some l else find_library path rest
  end.

Record image := {
  loaded_before : list library;  (** ahead of the interposer in search order *)
  interposer : library;          (** the module built from this file *)
  loaded_after : list library    (** behind it in search order *)
}.

Definition search_order (img : image) : list library :=
  loaded_before img ++ interposer img :: loaded_after img.

(** The address of the interposing [uname] itself. *)
Definition entry (img : image) : ptr :=
  first_definition __func__ [interposer img].

(** Modelled from the spec: [dlopen] of the host loader, which is outside the
    repository.  Opening a library of the image by name gives a handle to
    it; otherwise the null handle. *)
Definition image_dlopen (img : image) (path : string) (mode : Z) : handle :=
  match find_library path (search_order img) with
  | Some l => Opened l
  | None => NULL_handle
  end.

(** Modelled from the spec: [dlsym] of the host loader, which is outside the
    repository.  With [RTLD_NEXT] it resolves the name in the search order
    that begins after the module that asks (the source: "the *next*
    occurrence of the specified name"); with a library's handle it queries
    that specific library; the null handle is the default search order on
    Linux and no valid handle on OS X. *)
Definition image_dlsym (p : platform) (img : image) (h : handle)
  (symbol : string) : ptr :=
  match h with
  | RTLD_NEXT => first_definition symbol (loaded_after img)
  | Opened l => first_definition symbol [l]
  | NULL_handle =>
      match p with
      | Linux => first_definition symbol (search_order img)
      | Apple => NULL
      end
  end.

Definition image_host (p : platform) (img : image)
  (code : ptr -> ptr -> mem -> Z * mem) : host :=
  {| os := p;
     host_dlopen := image_dlopen img;
     host_dlsym := image_dlsym p img;
     host_call := code |}.

Definition exports_address (a : ptr) (l : library) : bool :=
  existsb (fun sa => snd sa =? a) (symbols l).

(** What every real image satisfies: the interposer exports its entry at a
    non-null address, no other module has a symbol at that address, and the
    interposer is not the system library itself. *)
Definition well_formed (img : image) : bool :=
  negb (entry img =? NULL)
  && negb (existsb (exports_address (entry img))
             (loaded_before img ++ loaded_after img))
  && negb (String.eqb (soname (interposer img)) "libc.dylib").

(* ================================================================= *)
(** ** The two resolution strategies, in the specification's words

    Convention A: ask for the symbol under the next-in-search-order
    sentinel, naming no library.  Convention B: open the system library by
    name with immediate binding, then ask that handle for the symbol.  Each
    is the list of loader requests made and the pointer obtained. *)

Definition strategy_A (H : host) (symbol : string) : list event * ptr :=
  ([EvDlsym RTLD_NEXT symbol], host_dlsym H RTLD_NEXT symbol).

Definition strategy_B (H : host) (symbol : string) : list event * ptr :=
  let handle := host_dlopen H "libc.dylib" RTLD_NOW in
  ([EvDlopen "libc.dylib" RTLD_NOW; EvDlsym handle symbol],
   host_dlsym H handle symbol).

Definition strategy (H : host) : list event * ptr :=
  match os H with
  | Linux => strategy_A H __func__
  | Apple => strategy_B H __func__
  end.

(** The pointer the build's strategy obtains on this host. *)
Definition resolved (H : host) : ptr := snd (strategy H).

(** The pointer a call of [uname] in state [st] has in the slot when it
    reaches the delegated call: the cached one, or else the one just
    resolved. *)
Definition delegate (H : host) (st : process) : ptr :=
  if original st =? NULL then resolved H else original st.

(** The line [printf] produces on the failure path. *)
Definition failure_line (name : string) : string :=
  "ERROR: Failed to locate original " ++ name ++ "() function; exiting"
  ++ newline.

(** The memory [uname] leaves, given the status and memory the delegated
    call produced. *)
Definition after_hook (name : ptr) (rm : Z * mem) : mem :=
  if fst rm =? 0
  then strncpy (snd rm) (field_addr name version) (c_literal "Johnny 5")
         (sizeof_field version)
  else snd rm.

(** The characters of a C string held in an array: those before the first
    null byte. *)
Fixpoint c_string (src : list byte) : list byte :=
  match src with
  | [] => []
  | c :: src' => if Byte.eqb c x00 then [] else c :: c_string src'
  end.

(* ================================================================= *)
(** ** Observations on traces *)

Definition is_lookup (e : event) : bool :=
  match e with EvDlsym _ _ => true | _ => false end.

Definition is_open (e : event) : bool :=
  match e with EvDlopen _ _ => true | _ => false end.

Definition count (p : event -> bool) (t : list event) : nat :=
  List.length (filter p t).

(** The pointers delegated through, oldest first. *)
Fixpoint delegations (t : list event) : list ptr :=
  match t with
  | [] => []
  | EvCall f _ :: rest => f :: delegations rest
  | _ :: rest => delegations rest
  end.

(** The text written to a stream, in order. *)
Fixpoint written (s : stream) (t : list event) : list string :=
  match t with
  | [] => []
  | EvWrite stdout text :: rest =>
      match s with stdout => text :: written s rest | stderr => written s rest end
  | EvWrite stderr text :: rest =>
      match s with stderr => text :: written s rest | stdout => written s rest end
  | _ :: rest => written s rest
  end.

(** What holds of a process between calls of [uname]: at most one lookup
    and one open so far, every delegation through the pointer the strategy
    obtains, and the slot either still null with no loader request made, or
    holding that pointer. *)
Definition between_calls (H : host) (st : process) : Prop :=
  (count is_lookup (trace st) <= 1)%nat
  /\ (count is_open (trace st) <= 1)%nat
  /\ Forall (fun f => f = resolved H) (delegations (trace st))
  /\ ((original st = NULL
       /\ count is_lookup (trace st) = 0%nat
       /\ count is_open (trace st) = 0%nat)
      \/ (original st = resolved H /\ resolved H <> NULL)).

(** What holds when the run is over, by return or by exit. *)
Definition at_end (H : host) (st : process) : Prop :=
  (count is_lookup (trace st) <= 1)%nat
  /\ (count is_open (trace st) <= 1)%nat
  /\ Forall (fun f => f = resolved H) (delegations (trace st))
  /\ (original st = NULL \/ (original st = resolved H /\ resolved H <> NULL)).

(** The arguments of the delegated calls, oldest first. *)
Fixpoint call_args (t : list event) : list ptr :=
  match t with
  | [] => []
  | EvCall _ arg :: rest => arg :: call_args rest
  | _ :: rest => call_args rest
  end.

(** What calling the function at [f] directly would give, with the hook of
    [uname] after each call: the statuses, and the memory left. *)
Fixpoint direct_calls (H : host) (f : ptr) (names : list ptr) (m : mem)
  : list Z * mem :=
  match names with
  | [] => ([], m)
  | name :: rest =>
      let rm := host_call H f name m in
      let r := direct_calls H f rest (after_hook name rm) in
      (fst rm :: fst r, snd r)
  end.

(* ================================================================= *)
(** ** Sample hosts *)

Definition libc_uname_addr : ptr := 4096.
Definition interposer_addr : ptr := 8192.

(** A stand-in for the genuine [uname]: fails on a null argument, else
    fills the five members and succeeds. *)
Definition sample_code (f arg : ptr) (m : mem) : Z * mem :=
  if (f =? libc_uname_addr) && negb (arg =? NULL)
  then
    (0,
     strncpy
       (strncpy
          (strncpy
             (strncpy
                (strncpy m (field_addr arg sysname) (c_literal "Linux")
                   (sizeof_field sysname))
                (field_addr arg nodename) (c_literal "host")
                (sizeof_field nodename))
             (field_addr arg release) (c_literal "3.2.0")
             (sizeof_field release))
          (field_addr arg version) (c_literal "#1 SMP Sat Jun 2 2012")
          (sizeof_field version))
       (field_addr arg machine) (c_literal "x86_64")
       (sizeof_field machine))
  else (-1, m).

Definition blank : mem := fun _ => "?"%byte.

Definition linux_image : image :=
  {| loaded_before := [];
     interposer := {| soname := "interpose_uname.so";
                      symbols := [("uname"%string, interposer_addr)] |};
     loaded_after := [ {| soname := "libc.so.6";
                          symbols := [("uname"%string, libc_uname_addr)] |} ] |}.

Definition apple_image : image :=
  {| loaded_before := [];
     interposer := {| soname := "interpose_uname.dylib";
                      symbols := [("uname"%string, interposer_addr)] |};
     loaded_after := [ {| soname := "libc.dylib";
                          symbols := [("uname"%string, libc_uname_addr)] |} ] |}.

(** An image in which nothing behind the interposer defines [uname]. *)
Definition bare_image : image :=
  {| loaded_before := [];
     interposer := {| soname := "interpose_uname.so";
                      symbols := [("uname"%string, interposer_addr)] |};
     loaded_after := [] |}.

Definition linux_host : host := image_host Linux linux_image sample_code.
Definition apple_host : host := image_host Apple apple_image sample_code.
Definition bare_host : host := image_host Linux bare_image sample_code.

(** An OS X build in a process where no [libc.dylib] can be opened. *)
Definition apple_bare_host : host := image_host Apple bare_image sample_code.

Definition buf : ptr := 65536.

Example format_s_line :
  format_s ("ERROR: Failed to locate original %s() function; exiting" ++ newline)
    "uname"
  = ("ERROR: Failed to locate original uname() function; exiting" ++ newline)%string.
Proof. reflexivity. Qed.

Example linux_first_call :
  match uname linux_host buf (process_start blank) with
  | Returned r st =>
      r = 0 /\ original st = libc_uname_addr
      /\ trace st = [EvDlsym RTLD_NEXT "uname"; EvCall libc_uname_addr buf]
      /\ read_bytes (memory st) (field_addr buf version) 10
         = list_byte_of_string "Johnny 5" ++ [x00; x00]
      /\ read_bytes (memory st) (field_addr buf machine) 7
         = c_literal "x86_64"
  | Exited _ _ => False
  end.
Proof. vm_compute. repeat split. Qed.

Example bare_first_call :
  match uname bare_host buf (process_start blank) with
  | Returned _ _ => False
  | Exited status st =>
      status = 1 /\ original st = NULL
      /\ trace st =
           [EvDlsym RTLD_NEXT "uname";
            EvWrite stdout
              ("ERROR: Failed to locate original uname() function; exiting"
               ++ newline)]
  end.
Proof. vm_compute. repeat split. Qed.

Example apple_two_calls :
  match uname_calls apple_host [buf; buf] (process_start blank) with
  | Returned rs st =>
      rs = [0; 0] /\ original st = libc_uname_addr
      /\ trace st
         = [EvDlopen "libc.dylib" RTLD_NOW;
            EvDlsym (image_dlopen apple_image "libc.dylib" RTLD_NOW) "uname";
            EvCall libc_uname_addr buf;
            EvCall libc_uname_addr buf]
  | Exited _ _ => False
  end.
Proof. vm_compute. repeat split. Qed.

Example failing_original_passes_through :
  match uname linux_host NULL (process_start blank) with
  | Returned r st => r = -1 /\ read_bytes (memory st) (offsetof version) 4
                               = list_byte_of_string "????"
  | Exited _ _ => False
  end.
Proof. vm_compute. repeat split. Qed.

(** The source's remark on the OS X technique under Linux ("it results in an
    infinite recurse"): there is no [libc.dylib] to open, and the null handle
    resolves the name to the interposing entry itself. *)
Example osx_technique_on_linux :
  image_dlsym Linux linux_image
    (image_dlopen linux_image "libc.dylib" RTLD_NOW) "uname"
  = entry linux_image.
Proof. reflexivity. Qed.

(* ================================================================= *)
(** ** Memory and [strncpy] *)

Lemma store_same (m : mem) (a : ptr) (b : byte) : store m a b a = b.
Proof. unfold store. now rewrite Z.eqb_refl. Qed.

Lemma store_other (m : mem) (a a' : ptr) (b : byte) :
  a' <> a -> store m a b a' = m a'.
Proof. intros Hne. unfold store. now apply Z.eqb_neq in Hne as ->. Qed.

(** [strncpy] writes nowhere outside the [n] bytes from [dest] on. *)
Lemma strncpy_outside (n : nat) :
  forall (m : mem) (dest : ptr) (src : list byte) (a : ptr),
    a < dest \/ dest + Z.of_nat n <= a ->
    strncpy m dest src n a = m a.
Proof.
  induction n as [|n IH]; intros m dest src a Hout; [reflexivity|].
  assert (Hstep : forall b src', strncpy (store m dest b) (dest + 1) src' n a = m a).
  { intros b src'. rewrite IH by lia. apply store_other. lia. }
  cbn [strncpy]. destruct src as [|c src']; [apply Hstep|].
  destruct (Byte.eqb c x00); apply Hstep.
Qed.

(** Inside, byte [i] is character [i] of the source string, or null once
    the string has ended. *)
Lemma strncpy_inside (n : nat) :
  forall (m : mem) (dest : ptr) (src : list byte) (i : nat),
    (i < n)%nat ->
    strncpy m dest src n (dest + Z.of_nat i) = nth i (c_string src) x00.
Proof.
  induction n as [|n IH]; intros m dest src i Hi; [lia|].
  destruct i as [|i].
  - replace (dest + Z.of_nat 0) with dest by lia.
    cbn [strncpy]. destruct src as [|c src']; cbn [c_string].
    + rewrite strncpy_outside by lia. apply store_same.
    + destruct (Byte.eqb c x00) eqn:Hc.
      * rewrite strncpy_outside by lia. apply store_same.
      * rewrite strncpy_outside by lia. apply store_same.
  - replace (dest + Z.of_nat (S i)) with (dest + 1 + Z.of_nat i) by lia.
    cbn [strncpy]. destruct src as [|c src']; cbn [c_string].
    + rewrite IH by lia. now destruct i.
    + destruct (Byte.eqb c x00) eqn:Hc.
      * rewrite IH by lia. now destruct i.
      * rewrite IH by lia. reflexivity.
Qed.

Lemma failure_line_printf :
  format_s ("ERROR: Failed to locate original %s() function; exiting" ++ newline)
    __func__
  = failure_line __func__.
Proof. reflexivity. Qed.

(* ================================================================= *)
(** ** One call of [uname], step by step *)

(** With the slot already set, a call delegates through it and nothing
    else: no loader request, no output, the slot unchanged. *)
Lemma uname_resolved (H : host) (name : ptr) (st : process) :
  original st <> NULL ->
  uname H name st
  = Returned (fst (host_call H (original st) name (memory st)))
      {| original := original st;
         memory := after_hook name (host_call H (original st) name (memory st));
         trace := trace st ++ [EvCall (original st) name] |}.
Proof.
  intros Hset. apply Z.eqb_neq in Hset.
  unfold uname, bind, get_original, call, after_hook. rewrite Hset.
  unfold ret. cbn.
  destruct (host_call H (original st) name (memory st)) as [r m'].
  cbn. destruct (r =? 0); reflexivity.
Qed.

(** With the slot null, the build's strategy runs; a null result ends the
    process after the diagnostic, any other is stored and delegated to. *)
Lemma uname_unresolved (H : host) (name : ptr) (st : process) :
  original st = NULL ->
  uname H name st
  = if resolved H =? NULL
    then Exited 1
           {| original := resolved H;
              memory := memory st;
              trace := trace st ++ fst (strategy H)
                       ++ [EvWrite stdout (failure_line __func__)] |}
    else Returned (fst (host_call H (resolved H) name (memory st)))
           {| original := resolved H;
              memory := after_hook name
                          (host_call H (resolved H) name (memory st));
              trace := trace st ++ fst (strategy H)
                       ++ [EvCall (resolved H) name] |}.
Proof.
  intros Hnull.
  unfold uname, bind, get_original. rewrite Hnull. cbn [Z.eqb NULL].
  unfold resolve, resolved, strategy, strategy_A, strategy_B.
  destruct (os H); cbn.
  - destruct (host_dlsym H (host_dlopen H "libc.dylib" RTLD_NOW) __func__ =? NULL)
      eqn:Hp; cbn.
    + rewrite <- !app_assoc. reflexivity.
    + unfold call, after_hook. cbn.
      destruct (host_call H _ name (memory st)) as [r m']. cbn.
      rewrite <- !app_assoc. destruct (r =? 0); reflexivity.
  - destruct (host_dlsym H RTLD_NEXT __func__ =? NULL) eqn:Hp; cbn.
    + rewrite <- !app_assoc. reflexivity.
    + unfold call, after_hook. cbn.
      destruct (host_call H _ name (memory st)) as [r m']. cbn.
      rewrite <- !app_assoc. destruct (r =? 0); reflexivity.
Qed.

(** Every call either delegates through [delegate], or, when that is null,
    ends the process with status 1 without delegating. *)
Lemma uname_delegates (H : host) (name : ptr) (st : process) :
  delegate H st <> NULL ->
  exists evs,
    uname H name st
    = Returned (fst (host_call H (delegate H st) name (memory st)))
        {| original := delegate H st;
           memory := after_hook name
                       (host_call H (delegate H st) name (memory st));
           trace := trace st ++ evs ++ [EvCall (delegate H st) name] |}
    /\ evs = if original st =? NULL then fst (strategy H) else [].
Proof.
  unfold delegate. destruct (original st =? NULL) eqn:Hslot; intros Hp.
  - apply Z.eqb_eq in Hslot. exists (fst (strategy H)). split; [|reflexivity].
    rewrite (uname_unresolved H name st Hslot).
    now apply Z.eqb_neq in Hp as ->.
  - exists []. split; [|reflexivity].
    apply uname_resolved. now apply Z.eqb_neq.
Qed.

Lemma uname_fails (H : host) (name : ptr) (st : process) :
  delegate H st = NULL ->
  uname H name st
  = Exited 1
      {| original := NULL;
         memory := memory st;
         trace := trace st ++ fst (strategy H)
                  ++ [EvWrite stdout (failure_line __func__)] |}
  /\ original st = NULL /\ resolved H = NULL.
Proof.
  unfold delegate. destruct (original st =? NULL) eqn:Hslot; intros Hp.
  - apply Z.eqb_eq in Hslot.
    rewrite (uname_unresolved H name st Hslot), Hp. cbn. auto.
  - apply Z.eqb_neq in Hslot. contradiction.
Qed.

(* ================================================================= *)
(** ** Reading a field back *)

Lemma read_bytes_pointwise (k : nat) :
  forall (m : mem) (a : ptr) (l : list byte),
    List.length l = k ->
    (forall i, (i < k)%nat -> m (a + Z.of_nat i) = nth i l x00) ->
    read_bytes m a k = l.
Proof.
  induction k as [|k IH]; intros m a l Hlen Hat.
  - now destruct l.
  - destruct l as [|b l]; [discriminate|]. cbn [read_bytes]. f_equal.
    + specialize (Hat 0%nat ltac:(lia)). cbn in Hat.
      now rewrite Z.add_0_r in Hat.
    + apply IH; [now injection Hlen|]. intros i Hi.
      specialize (Hat (S i) ltac:(lia)). cbn [nth] in Hat.
      rewrite <- Hat. f_equal. lia.
Qed.

Lemma nth_null_padding (l : list byte) (k i : nat) :
  nth i (l ++ repeat x00 k) x00 = nth i l x00.
Proof.
  destruct (Nat.lt_ge_cases i (List.length l)) as [Hlt|Hge].
  - now apply app_nth1.
  - rewrite app_nth2 by lia. rewrite nth_repeat.
    symmetry. now apply nth_overflow.
Qed.

Lemma johnny5_string :
  c_string (c_literal "Johnny 5") = list_byte_of_string "Johnny 5".
Proof. reflexivity. Qed.

(** The whole field after the hook, whatever it held before. *)
Lemma hook_overwrites_version (name : ptr) (m : mem) :
  read_bytes (after_hook name (0, m)) (field_addr name version)
    (sizeof_field version)
  = list_byte_of_string "Johnny 5" ++ repeat x00 (sizeof_field version - 8).
Proof.
  apply read_bytes_pointwise; [reflexivity|].
  intros i Hi. unfold after_hook. cbn [fst snd Z.eqb].
  rewrite strncpy_inside by exact Hi.
  rewrite johnny5_string. symmetry. apply nth_null_padding.
Qed.

Lemma hook_frame (name : ptr) (m : mem) (a : ptr) :
  a < field_addr name version
  \/ field_addr name version + Z.of_nat (sizeof_field version) <= a ->
  after_hook name (0, m) a = m a.
Proof.
  intros Hout. unfold after_hook. cbn [fst snd Z.eqb].
  now apply strncpy_outside.
Qed.

Lemma read_bytes_firstn (k n : nat) :
  forall (m : mem) (a : ptr),
    (k <= n)%nat -> read_bytes m a k = firstn k (read_bytes m a n).
Proof.
  revert n. induction k as [|k IH]; intros n m a Hkn; [reflexivity|].
  destruct n as [|n]; [lia|]. cbn [read_bytes firstn]. f_equal.
  apply IH. lia.
Qed.

(* ================================================================= *)
(** ** The status returned and the output structure *)

(** C7. A call of [uname] that does not end the process on the
    resolution-failure path returns exactly the status the delegated call
    through the slot returned, zero or not; the only other outcome is the
    exit of the failure path, taken when the slot was null and resolution
    gave null. *)
Theorem uname_returns_delegated_status (H : host) (name : ptr) (st : process) :
  match uname H name st with
  | Returned r st' =>
      original st' = delegate H st
      /\ r = fst (host_call H (original st') name (memory st))
  | Exited status _ => original st = NULL /\ resolved H = NULL
  end.
Proof.
  destruct (Z.eq_dec (delegate H st) NULL) as [Hnull|Hp].
  - destruct (uname_fails H name st Hnull) as (-> & Hslot & Hres). auto.
  - destruct (uname_delegates H name st Hp) as (evs & -> & _). cbn. auto.
Qed.

(** C4. When the delegated original returns a non-zero status, [uname]
    returns that same status and leaves the memory exactly as the original
    left it: the hook writes nothing. *)
Theorem failure_is_transparent (H : host) (name : ptr) (st : process)
  (r : Z) (m' : mem) :
  delegate H st <> NULL ->
  host_call H (delegate H st) name (memory st) = (r, m') ->
  r <> 0 ->
  exists st', uname H name st = Returned r st' /\ memory st' = m'.
Proof.
  intros Hp Hcall Hr.
  destruct (uname_delegates H name st Hp) as (evs & -> & _).
  rewrite Hcall. eexists. split; [reflexivity|].
  cbn. unfold after_hook. cbn. now apply Z.eqb_neq in Hr as ->.
Qed.

Lemma failure_is_transparent_witness :
  exists st',
    uname linux_host NULL (process_start blank) = Returned (-1) st'
    /\ memory st' = blank.
Proof.
  apply (failure_is_transparent linux_host NULL (process_start blank) (-1) blank).
  - vm_compute. discriminate.
  - reflexivity.
  - lia.
Defined.

(** C5. When the delegated original returns zero, the version field
    afterwards begins with the bytes of [Johnny 5] followed by a null byte,
    these nine bytes fit the field's capacity, and no byte at or past the end
    of the field differs from what the original left. *)
Theorem version_begins_with_johnny5 (H : host) (name : ptr) (st : process)
  (m' : mem) :
  delegate H st <> NULL ->
  host_call H (delegate H st) name (memory st) = (0, m') ->
  exists st',
    uname H name st = Returned 0 st'
    /\ read_bytes (memory st') (field_addr name version) 9
       = list_byte_of_string "Johnny 5" ++ [x00]
    /\ (9 <= sizeof_field version)%nat
    /\ forall a,
         field_addr name version + Z.of_nat (sizeof_field version) <= a ->
         memory st' a = m' a.
Proof.
  intros Hp Hcall.
  destruct (uname_delegates H name st Hp) as (evs & -> & _).
  rewrite Hcall. eexists. split; [reflexivity|]. cbn [memory fst].
  split; [|split].
  - rewrite (read_bytes_firstn 9 (sizeof_field version))
      by (unfold sizeof_field, _SYS_NAMELEN; lia).
    rewrite hook_overwrites_version. reflexivity.
  - unfold sizeof_field, _SYS_NAMELEN. lia.
  - intros a Ha. apply hook_frame. now right.
Qed.

Lemma version_begins_with_johnny5_witness :
  exists st',
    uname linux_host buf (process_start blank) = Returned 0 st'
    /\ read_bytes (memory st') (field_addr buf version) 9
       = list_byte_of_string "Johnny 5" ++ [x00]
    /\ (9 <= sizeof_field version)%nat
    /\ forall a,
         field_addr buf version + Z.of_nat (sizeof_field version) <= a ->
         memory st' a = snd (sample_code libc_uname_addr buf blank) a.
Proof.
  apply (version_begins_with_johnny5 linux_host buf (process_start blank)
           (snd (sample_code libc_uname_addr buf blank))).
  - vm_compute. discriminate.
  - reflexivity.
Defined.

(** C9. On success the hook rewrites the whole version field: bytes 0..7
    are [Johnny 5] and every byte from 8 to the capacity is null, whatever
    the caller or the original had left there. *)
Theorem version_field_fully_overwritten (H : host) (name : ptr)
  (st : process) (m' : mem) :
  delegate H st <> NULL ->
  host_call H (delegate H st) name (memory st) = (0, m') ->
  exists st',
    uname H name st = Returned 0 st'
    /\ read_bytes (memory st') (field_addr name version) (sizeof_field version)
       = list_byte_of_string "Johnny 5"
         ++ repeat x00 (sizeof_field version - 8)
    /\ (8 < sizeof_field version)%nat.
Proof.
  intros Hp Hcall.
  destruct (uname_delegates H name st Hp) as (evs & -> & _).
  rewrite Hcall. eexists. split; [reflexivity|]. cbn [memory fst]. split.
  - apply hook_overwrites_version.
  - unfold sizeof_field, _SYS_NAMELEN. lia.
Qed.

Lemma version_field_fully_overwritten_witness :
  exists st',
    uname apple_host buf (process_start blank) = Returned 0 st'
    /\ read_bytes (memory st') (field_addr buf version) (sizeof_field version)
       = list_byte_of_string "Johnny 5"
         ++ repeat x00 (sizeof_field version - 8)
    /\ (8 < sizeof_field version)%nat.
Proof.
  apply (version_field_fully_overwritten apple_host buf (process_start blank)
           (snd (sample_code libc_uname_addr buf blank))).
  - vm_compute. discriminate.
  - reflexivity.
Defined.

(** C6. On success every byte of [sysname], [nodename], [release] and
    [machine] is the byte the original wrote, and so is every byte of memory
    outside the version field: the interposer writes to that field only. *)
Theorem other_fields_untouched (H : host) (name : ptr) (st : process)
  (m' : mem) :
  delegate H st <> NULL ->
  host_call H (delegate H st) name (memory st) = (0, m') ->
  exists st',
    uname H name st = Returned 0 st'
    /\ (forall f i,
          f <> version -> (i < sizeof_field f)%nat ->
          field_byte (memory st') name f i = field_byte m' name f i)
    /\ (forall a,
          a < field_addr name version
          \/ field_addr name version + Z.of_nat (sizeof_field version) <= a ->
          memory st' a = m' a).
Proof.
  intros Hp Hcall.
  destruct (uname_delegates H name st Hp) as (evs & -> & _).
  rewrite Hcall. eexists. split; [reflexivity|]. cbn [memory fst]. split.
  - intros f i Hf Hi. unfold field_byte. apply hook_frame.
    unfold field_addr, offsetof, sizeof_field, _SYS_NAMELEN in *.
    destruct f; cbn [field_index]; try contradiction; lia.
  - intros a Ha. now apply hook_frame.
Qed.

Lemma other_fields_untouched_witness :
  exists st',
    uname linux_host buf (process_start blank) = Returned 0 st'
    /\ (forall f i,
          f <> version -> (i < sizeof_field f)%nat ->
          field_byte (memory st') buf f i
          = field_byte (snd (sample_code libc_uname_addr buf blank)) buf f i)
    /\ (forall a,
          a < field_addr buf version
          \/ field_addr buf version + Z.of_nat (sizeof_field version) <= a ->
          memory st' a = snd (sample_code libc_uname_addr buf blank) a).
Proof.
  apply (other_fields_untouched linux_host buf (process_start blank)
           (snd (sample_code libc_uname_addr buf blank))).
  - vm_compute. discriminate.
  - reflexivity.
Defined.

(* ================================================================= *)
(** ** Traces *)

Lemma delegations_app (t1 t2 : list event) :
  delegations (t1 ++ t2) = delegations t1 ++ delegations t2.
Proof.
  induction t1 as [|e t1 IH]; [reflexivity|].
  destruct e; cbn; now rewrite IH.
Qed.

Lemma written_app (s : stream) (t1 t2 : list event) :
  written s (t1 ++ t2) = written s t1 ++ written s t2.
Proof.
  induction t1 as [|e t1 IH]; [reflexivity|].
  destruct e as [| |s' text|]; cbn; try exact IH.
  destruct s', s; cbn; now rewrite IH.
Qed.

Lemma count_app (p : event -> bool) (t1 t2 : list event) :
  count p (t1 ++ t2) = (count p t1 + count p t2)%nat.
Proof. unfold count. now rewrite filter_app, length_app. Qed.

Lemma strategy_delegations (H : host) : delegations (fst (strategy H)) = [].
Proof. unfold strategy. now destruct (os H). Qed.

Lemma strategy_written (s : stream) (H : host) :
  written s (fst (strategy H)) = [].
Proof. unfold strategy. now destruct (os H). Qed.

Lemma strategy_lookups (H : host) : count is_lookup (fst (strategy H)) = 1%nat.
Proof. unfold strategy. now destruct (os H). Qed.

Lemma strategy_opens (H : host) : (count is_open (fst (strategy H)) <= 1)%nat.
Proof. unfold strategy. destruct (os H); cbn; lia. Qed.

Example failure_line_uname :
  failure_line __func__
  = ("ERROR: Failed to locate original uname() function; exiting" ++ newline)%string.
Proof. reflexivity. Qed.

(* ================================================================= *)
(** ** Resolution: strategies, failure, and the call site *)

(** C8. The resolver makes exactly the loader requests of the strategy its
    build selects and keeps the pointer that strategy obtains: on Linux one
    [dlsym] of the symbol under [RTLD_NEXT], no library named or opened; on
    OS X a [dlopen] of [libc.dylib] with [RTLD_NOW], then one [dlsym] of the
    symbol on the handle that [dlopen] gave. *)
Theorem resolve_follows_build_strategy (H : host) (st : process) :
  let followed (s : list event * ptr) :=
    original (state_of (resolve H st)) = snd s
    /\ memory (state_of (resolve H st)) = memory st
    /\ trace (state_of (resolve H st))
       = trace st ++ fst s
         ++ (if snd s =? NULL
             then [EvWrite stdout (failure_line __func__)] else [])
  in
  match os H with
  | Linux => followed (strategy_A H "uname")
  | Apple => followed (strategy_B H "uname")
  end.
Proof.
  unfold resolve, strategy_A, strategy_B, bind, dlopen, dlsym, log, ret,
    set_original, get_original, printf, exit, __func__.
  destruct (os H); cbn [fst snd original memory trace].
  - destruct (host_dlsym H (host_dlopen H "libc.dylib" RTLD_NOW) "uname" =? NULL)
      eqn:Hp; cbn; rewrite Hp; cbn; rewrite <- ?app_assoc; auto.
  - destruct (host_dlsym H RTLD_NEXT "uname" =? NULL) eqn:Hp;
      cbn; rewrite Hp; cbn; rewrite <- ?app_assoc; auto.
Qed.

(** C3, as the code has it.  When the slot is null and resolution gives
    null, [uname] ends the process with status 1 after writing the single
    line [ERROR: Failed to locate original uname() function; exiting] to the
    standard output stream ([printf]); nothing goes to the standard error
    stream, no call is delegated and the memory is left as it was. *)
Theorem resolution_failure_is_fatal (H : host) (name : ptr) (st : process) :
  original st = NULL ->
  resolved H = NULL ->
  exists st',
    uname H name st = Exited 1 st'
    /\ trace st'
       = trace st ++ fst (strategy H)
         ++ [EvWrite stdout (failure_line __func__)]
    /\ written stdout (trace st')
       = written stdout (trace st) ++ [failure_line __func__]
    /\ written stderr (trace st') = written stderr (trace st)
    /\ delegations (trace st') = delegations (trace st)
    /\ memory st' = memory st.
Proof.
  intros Hslot Hres.
  assert (Hnull : delegate H st = NULL).
  { unfold delegate. now rewrite Hslot. }
  destruct (uname_fails H name st Hnull) as (-> & _ & _).
  eexists. split; [reflexivity|]. cbn [trace memory].
  rewrite !written_app, !delegations_app, !strategy_written,
    strategy_delegations.
  cbn. rewrite !app_nil_r. auto.
Qed.

Lemma resolution_failure_is_fatal_witness :
  exists st',
    uname bare_host buf (process_start blank) = Exited 1 st'
    /\ trace st'
       = trace (process_start blank) ++ fst (strategy bare_host)
         ++ [EvWrite stdout (failure_line __func__)]
    /\ written stdout (trace st')
       = written stdout (trace (process_start blank))
         ++ [failure_line __func__]
    /\ written stderr (trace st') = written stderr (trace (process_start blank))
    /\ delegations (trace st') = delegations (trace (process_start blank))
    /\ memory st' = memory (process_start blank).
Proof.
  apply (resolution_failure_is_fatal bare_host buf (process_start blank));
    reflexivity.
Defined.

(** C3 as the specification words it, with the standard error stream as
    the destination, fails: with nothing behind the interposer defining
    [uname], the first call exits with status 1 and the standard error
    stream has received nothing. *)
Lemma diagnostic_not_on_stderr :
  ~ (original (process_start blank) = NULL ->
     resolved bare_host = NULL ->
     exists st',
       uname bare_host buf (process_start blank) = Exited 1 st'
       /\ written stderr (trace st') = [failure_line __func__]).
Proof.
  intros Hclaim.
  destruct (Hclaim eq_refl eq_refl) as (st' & Hrun & Herr).
  vm_compute in Hrun. injection Hrun as <-.
  vm_compute in Herr. discriminate Herr.
Qed.

(** C10. The call through the slot is never made with a null pointer: the
    calls one invocation of [uname] adds to the trace all have a non-null
    target; when the pointer at hand is null the process exits with status 1
    and no call is added, otherwise exactly one call, through that pointer. *)
Theorem delegation_never_null (H : host) (name : ptr) (st : process) :
  exists evs,
    trace (state_of (uname H name st)) = trace st ++ evs
    /\ Forall (fun f => f <> NULL) (delegations evs)
    /\ if delegate H st =? NULL
       then delegations evs = []
            /\ uname H name st = Exited 1 (state_of (uname H name st))
       else delegations evs = [delegate H st]
            /\ original (state_of (uname H name st)) = delegate H st.
Proof.
  destruct (delegate H st =? NULL) eqn:Hd.
  - apply Z.eqb_eq in Hd.
    destruct (uname_fails H name st Hd) as (Hrun & _ & _). rewrite Hrun.
    eexists. split; [reflexivity|]. cbn [state_of].
    rewrite delegations_app, strategy_delegations. cbn. auto.
  - apply Z.eqb_neq in Hd.
    destruct (uname_delegates H name st Hd) as (evs & Hrun & Hevs).
    rewrite Hrun. eexists. split; [reflexivity|]. cbn [state_of original].
    rewrite delegations_app.
    assert (Hnone : delegations evs = []).
    { subst evs. destruct (original st =? NULL);
        [apply strategy_delegations | reflexivity]. }
    rewrite Hnone. cbn. repeat split; auto.
Qed.

(* ================================================================= *)
(** ** The slot over the life of a process *)

Lemma start_between_calls (H : host) (m : mem) :
  between_calls H (process_start m).
Proof. unfold between_calls. cbn. repeat split; auto. Qed.

Lemma between_calls_at_end (H : host) (st : process) :
  between_calls H st -> at_end H st.
Proof.
  intros (Hl & Ho & Hd & [(Hs & _) | Hs]); repeat split; auto.
Qed.

Lemma uname_keeps_invariant (H : host) (name : ptr) (st : process) :
  between_calls H st ->
  match uname H name st with
  | Returned _ st' => between_calls H st'
  | Exited _ st' => at_end H st'
  end.
Proof.
  intros (Hl & Ho & Hd & Hslot).
  destruct Hslot as [(Hs & Hl0 & Ho0) | (Hs & Hres)].
  - rewrite (uname_unresolved H name st Hs).
    destruct (resolved H =? NULL) eqn:Hr.
    + apply Z.eqb_eq in Hr. unfold at_end. cbn [trace original].
      rewrite !count_app, !delegations_app, strategy_delegations,
        strategy_lookups, Hl0, Ho0.
      pose proof (strategy_opens H). cbn. rewrite app_nil_r.
      repeat split; auto; lia.
    + apply Z.eqb_neq in Hr. unfold between_calls. cbn [trace original].
      rewrite !count_app, !delegations_app, strategy_delegations,
        strategy_lookups, Hl0, Ho0.
      pose proof (strategy_opens H). cbn.
      repeat split; auto; try lia.
      apply Forall_app. split; auto.
  - assert (Hset : original st <> NULL) by congruence.
    rewrite (uname_resolved H name st Hset).
    unfold between_calls. cbn [trace original].
    rewrite !count_app, delegations_app. cbn.
    repeat split; auto; try lia.
    apply Forall_app. split; auto.
Qed.

Lemma uname_calls_at_end (H : host) (names : list ptr) :
  forall st, between_calls H st -> at_end H (state_of (uname_calls H names st)).
Proof.
  induction names as [|name rest IH]; intros st Hinv.
  - now apply between_calls_at_end.
  - cbn [uname_calls]. unfold bind at 1.
    pose proof (uname_keeps_invariant H name st Hinv) as Hstep.
    destruct (uname H name st) as [r st'|status st']; [|exact Hstep].
    specialize (IH st' Hstep). unfold bind.
    destruct (uname_calls H rest st') as [rs st''|status st'']; exact IH.
Qed.

(** C2. The slot starts null.  Over any sequence of calls in one process
    there is at most one [dlsym] and at most one [dlopen], every delegation
    goes through the same pointer (the one resolution obtained), and the slot
    ends null or holding that pointer.  From any state, a call that returns
    leaves the slot non-null; a call that finds it non-null leaves it as it
    is and does nothing but delegate through it; a call that exits leaves it
    null. *)
Theorem resolution_is_cached (H : host) (names : list ptr) (m : mem)
  (name : ptr) (st : process) :
  let final := state_of (uname_calls H names (process_start m)) in
  original (process_start m) = NULL
  /\ (count is_lookup (trace final) <= 1)%nat
  /\ (count is_open (trace final) <= 1)%nat
  /\ Forall (fun f => f = resolved H) (delegations (trace final))
  /\ (original final = NULL \/ original final = resolved H)
  /\ match uname H name st with
     | Returned _ st' =>
         original st' <> NULL
         /\ if original st =? NULL
            then original st' = resolved H
            else original st' = original st
                 /\ trace st' = trace st ++ [EvCall (original st) name]
     | Exited _ st' => original st = NULL /\ original st' = NULL
     end.
Proof.
  intros final.
  destruct (uname_calls_at_end H names _ (start_between_calls H m))
    as (Hl & Ho & Hd & Hs).
  fold final in Hl, Ho, Hd, Hs.
  repeat (split; [first [reflexivity | assumption | tauto]|]).
  destruct (original st =? NULL) eqn:Hslot.
  - apply Z.eqb_eq in Hslot. rewrite (uname_unresolved H name st Hslot).
    destruct (resolved H =? NULL) eqn:Hr; cbn.
    + apply Z.eqb_eq in Hr. auto.
    + apply Z.eqb_neq in Hr. auto.
  - apply Z.eqb_neq in Hslot. rewrite (uname_resolved H name st Hslot).
    cbn. auto.
Qed.

(* ================================================================= *)
(** ** The loader model: what resolution can return *)

Lemma lookup_symbol_exported (symbol : string) (syms : list (string * ptr))
  (a : ptr) :
  lookup_symbol symbol syms = Some a ->
  existsb (fun sa => snd sa =? a) syms = true.
Proof.
  induction syms as [|[s b] rest IH]; cbn; [discriminate|].
  destruct (String.eqb s symbol).
  - intros [= ->]. now rewrite Z.eqb_refl.
  - intros Hrest. rewrite (IH Hrest). apply orb_true_r.
Qed.

(** A definition found along [libs] is null or a symbol of one of them. *)
Lemma first_definition_exported (symbol : string) (libs : list library) :
  first_definition symbol libs = NULL
  \/ exists l, In l libs
               /\ exports_address (first_definition symbol libs) l = true.
Proof.
  induction libs as [|l rest IH]; cbn; [now left|].
  destruct (lookup_symbol symbol (symbols l)) as [a|] eqn:Hl.
  - right. exists l. split; [now left|].
    unfold exports_address. now apply lookup_symbol_exported with symbol.
  - destruct IH as [IH | (l' & Hin & Hex)]; [now left|].
    right. exists l'. split; [now right | exact Hex].
Qed.

Lemma find_library_found (path : string) (libs : list library) (l : library) :
  find_library path libs = Some l -> In l libs /\ soname l = path.
Proof.
  induction libs as [|l0 rest IH]; cbn; [discriminate|].
  destruct (String.eqb (soname l0) path) eqn:Hname.
  - intros [= ->]. apply String.eqb_eq in Hname. auto.
  - intros Hrest. destruct (IH Hrest). auto.
Qed.

Lemma well_formed_parts (img : image) :
  well_formed img = true ->
  entry img <> NULL
  /\ (forall l, In l (loaded_before img ++ loaded_after img) ->
                exports_address (entry img) l = false)
  /\ soname (interposer img) <> "libc.dylib"%string.
Proof.
  unfold well_formed. intros Hwf.
  apply andb_prop in Hwf as [Hwf Hname]. apply andb_prop in Hwf as [He Hother].
  apply negb_true_iff in He, Hother, Hname. repeat split.
  - now apply Z.eqb_neq.
  - intros l Hin. destruct (exports_address (entry img) l) eqn:Hex; [|reflexivity].
    assert (Hsome : existsb (exports_address (entry img))
                      (loaded_before img ++ loaded_after img) = true).
    { apply existsb_exists. now exists l. }
    congruence.
  - now apply String.eqb_neq.
Qed.

(** Under either build, on a well-formed image, what resolution obtains is
    not the interposing entry. *)
Lemma image_resolved_not_entry (p : platform) (img : image)
  (code : ptr -> ptr -> mem -> Z * mem) :
  well_formed img = true ->
  resolved (image_host p img code) <> entry img.
Proof.
  intros Hwf. destruct (well_formed_parts img Hwf) as (Hentry & Hother & Hname).
  assert (Hlibs : forall symbol libs,
             (forall l, In l libs ->
                        In l (loaded_before img ++ loaded_after img)) ->
             first_definition symbol libs <> entry img).
  { intros symbol libs Hsub Heq.
    destruct (first_definition_exported symbol libs) as [Hnull | (l & Hin & Hex)].
    - congruence.
    - rewrite Heq in Hex. rewrite (Hother l (Hsub l Hin)) in Hex. discriminate. }
  unfold resolved, strategy, strategy_A, strategy_B.
  destruct p; cbn [os image_host host_dlopen host_dlsym fst snd].
  - unfold image_dlopen.
    destruct (find_library "libc.dylib" (search_order img)) as [l|] eqn:Hfind;
      cbn [image_dlsym]; [|congruence].
    apply find_library_found in Hfind as [Hin Hl].
    apply Hlibs. intros l' [<- | []].
    unfold search_order in Hin. apply in_app_or in Hin as [Hin | [Hin | Hin]].
    + apply in_or_app. now left.
    + subst l. contradiction.
    + apply in_or_app. now right.
  - apply Hlibs. intros l Hin. apply in_or_app. now right.
Qed.

(** C1. On a well-formed process image, under either build (Linux with
    [RTLD_NEXT], OS X with the handle of [libc.dylib]), over any sequence of
    calls the pointer in the slot is never the address of the interposing
    [uname], and neither is the target of any delegated call. *)
Theorem no_self_delegation (p : platform) (img : image)
  (code : ptr -> ptr -> mem -> Z * mem) (names : list ptr) (m : mem) :
  well_formed img = true ->
  let final :=
    state_of (uname_calls (image_host p img code) names (process_start m)) in
  original final <> entry img
  /\ Forall (fun f => f <> entry img) (delegations (trace final)).
Proof.
  intros Hwf final.
  pose proof (image_resolved_not_entry p img code Hwf) as Hres.
  destruct (well_formed_parts img Hwf) as (Hentry & _ & _).
  destruct (uname_calls_at_end (image_host p img code) names _
              (start_between_calls _ m)) as (_ & _ & Hd & Hs).
  fold final in Hd, Hs. split.
  - destruct Hs as [Hs | (Hs & _)]; congruence.
  - eapply Forall_impl; [|exact Hd]. cbn. intros f ->. exact Hres.
Qed.

Lemma no_self_delegation_witness :
  let final :=
    state_of (uname_calls linux_host [buf; NULL; buf] (process_start blank)) in
  original final <> entry linux_image
  /\ Forall (fun f => f <> entry linux_image) (delegations (trace final)).
Proof.
  apply (no_self_delegation Linux linux_image sample_code [buf; NULL; buf] blank).
  reflexivity.
Defined.

(* ================================================================= *)
(** ** More on [strncpy] *)

Lemma c_string_no_null (src : list byte) :
  Forall (fun b => b <> x00) (c_string src).
Proof.
  induction src as [|c src IH]; cbn; [constructor|].
  destruct (Byte.eqb c x00) eqn:Hc; constructor; auto.
  now apply Byte.eqb_false.
Qed.

Lemma Forall_firstn_of {A} (P : A -> Prop) (n : nat) (l : list A) :
  Forall P l -> Forall P (firstn n l).
Proof.
  intros Hall. revert n. induction Hall as [|x l Hx _ IH]; intros [|n]; cbn;
    constructor; auto.
Qed.

(** X1. [strncpy(dest, src, n)] writes exactly the [n] bytes from [dest] on
    and nothing else: they become the characters of the source string cut at
    [n], then null bytes up to [n]; every other address keeps its byte. *)
Theorem strncpy_writes_exactly (m : mem) (dest : ptr) (src : list byte)
  (n : nat) :
  read_bytes (strncpy m dest src n) dest n
  = firstn n (c_string src ++ repeat x00 n)
  /\ forall a, a < dest \/ dest + Z.of_nat n <= a ->
               strncpy m dest src n a = m a.
Proof.
  split; [|intros a Ha; now apply strncpy_outside].
  apply read_bytes_pointwise.
  - rewrite length_firstn, length_app, repeat_length. lia.
  - intros i Hi. rewrite strncpy_inside by exact Hi.
    rewrite nth_firstn. apply Nat.ltb_lt in Hi as ->.
    symmetry. apply nth_null_padding.
Qed.

(** X2. When the source string has at least [n] characters, [strncpy]
    copies its first [n] characters and writes no null byte: the destination
    is left without a terminator. *)
Theorem strncpy_truncation_unterminated (m : mem) (dest : ptr)
  (src : list byte) (n : nat) :
  (n <= List.length (c_string src))%nat ->
  read_bytes (strncpy m dest src n) dest n = firstn n (c_string src)
  /\ Forall (fun b => b <> x00) (read_bytes (strncpy m dest src n) dest n).
Proof.
  intros Hlen.
  assert (Hread : read_bytes (strncpy m dest src n) dest n
                  = firstn n (c_string src)).
  { apply read_bytes_pointwise.
    - rewrite length_firstn. lia.
    - intros i Hi. rewrite strncpy_inside by exact Hi.
      rewrite nth_firstn. now apply Nat.ltb_lt in Hi as ->. }
  split; [exact Hread|]. rewrite Hread.
  apply Forall_firstn_of, c_string_no_null.
Qed.

Lemma strncpy_truncation_unterminated_witness :
  read_bytes (strncpy blank buf (c_literal "Johnny 5") 8) buf 8
  = firstn 8 (c_string (c_literal "Johnny 5"))
  /\ Forall (fun b => b <> x00)
       (read_bytes (strncpy blank buf (c_literal "Johnny 5") 8) buf 8).
Proof.
  apply (strncpy_truncation_unterminated blank buf (c_literal "Johnny 5") 8).
  simpl. lia.
Defined.

(* ================================================================= *)
(** ** Whole runs *)

Lemma uname_calls_cons (H : host) (name : ptr) (rest : list ptr)
  (st : process) :
  uname_calls H (name :: rest) st
  = match uname H name st with
    | Returned r st1 =>
        match uname_calls H rest st1 with
        | Returned rs st2 => Returned (r :: rs) st2
        | Exited status st2 => Exited status st2
        end
    | Exited status st1 => Exited status st1
    end.
Proof. reflexivity. Qed.

Lemma call_args_app (t1 t2 : list event) :
  call_args (t1 ++ t2) = call_args t1 ++ call_args t2.
Proof.
  induction t1 as [|e t1 IH]; [reflexivity|].
  destruct e; cbn; now rewrite IH.
Qed.

Lemma strategy_call_args (H : host) : call_args (fst (strategy H)) = [].
Proof. unfold strategy. now destruct (os H). Qed.

(** With the slot set, a run is the direct calls through it, one trace entry
    each. *)
Lemma run_resolved (H : host) (names : list ptr) :
  forall st,
    original st <> NULL ->
    uname_calls H names st
    = Returned (fst (direct_calls H (original st) names (memory st)))
        {| original := original st;
           memory := snd (direct_calls H (original st) names (memory st));
           trace := trace st ++ map (EvCall (original st)) names |}.
Proof.
  induction names as [|name rest IH]; intros st Hset.
  - cbn. rewrite app_nil_r. now destruct st.
  - rewrite uname_calls_cons, (uname_resolved H name st Hset).
    rewrite IH by exact Hset. cbn. now rewrite <- app_assoc.
Qed.

(** The same from a slot that is still null, when resolution succeeds. *)
Lemma run_unresolved (H : host) (name : ptr) (rest : list ptr) (st : process) :
  original st = NULL ->
  resolved H <> NULL ->
  uname_calls H (name :: rest) st
  = Returned (fst (direct_calls H (resolved H) (name :: rest) (memory st)))
      {| original := resolved H;
         memory := snd (direct_calls H (resolved H) (name :: rest) (memory st));
         trace := trace st ++ fst (strategy H)
                  ++ map (EvCall (resolved H)) (name :: rest) |}.
Proof.
  intros Hnull Hres.
  rewrite uname_calls_cons, (uname_unresolved H name st Hnull).
  apply Z.eqb_neq in Hres as Hres'. rewrite Hres'.
  rewrite run_resolved by exact Hres.
  cbn. now rewrite <- !app_assoc.
Qed.

(** X3. When resolution succeeds, a run of one or more calls from a fresh
    process returns one status per call, leaves the resolved pointer in the
    slot, and its whole trace is the loader requests of the build's strategy
    followed by one delegated call per invocation, each through the resolved
    pointer with that invocation's own argument, in order; nothing is
    written to any stream. *)
Theorem successful_run_trace (H : host) (names : list ptr) (m : mem) :
  resolved H <> NULL ->
  names <> [] ->
  exists rs st',
    uname_calls H names (process_start m) = Returned rs st'
    /\ List.length rs = List.length names
    /\ original st' = resolved H
    /\ trace st' = fst (strategy H) ++ map (EvCall (resolved H)) names.
Proof.
  intros Hres Hnames. destruct names as [|name rest]; [contradiction|].
  rewrite (run_unresolved H name rest (process_start m) eq_refl Hres).
  do 2 eexists. split; [reflexivity|]. cbn [original trace process_start].
  repeat split.
  clear. generalize (memory (process_start m)).
  induction (name :: rest) as [|n l IH]; intros m0; cbn; [reflexivity|].
  now rewrite IH.
Qed.

Lemma successful_run_trace_witness :
  exists rs st',
    uname_calls apple_host [buf; NULL; buf] (process_start blank)
    = Returned rs st'
    /\ List.length rs = List.length [buf; NULL; buf]
    /\ original st' = resolved apple_host
    /\ trace st' = fst (strategy apple_host)
                   ++ map (EvCall (resolved apple_host)) [buf; NULL; buf].
Proof.
  apply (successful_run_trace apple_host [buf; NULL; buf] blank).
  - vm_compute. discriminate.
  - discriminate.
Defined.

(** X4. Caching cannot be observed in the results: whether the slot is
    still null or already holds the resolved pointer, a run returns the
    statuses, and leaves the memory, that calling the resolved function
    directly on the caller's memory (with the hook after each call) gives. *)
Theorem caching_is_unobservable (H : host) (names : list ptr) (st : process) :
  resolved H <> NULL ->
  original st = NULL \/ original st = resolved H ->
  exists st',
    uname_calls H names st
    = Returned (fst (direct_calls H (resolved H) names (memory st))) st'
    /\ memory st' = snd (direct_calls H (resolved H) names (memory st)).
Proof.
  intros Hres [Hnull | Hset].
  - destruct names as [|name rest].
    + exists st. split; reflexivity.
    + rewrite (run_unresolved H name rest st Hnull Hres).
      eexists. split; reflexivity.
  - rewrite <- Hset in Hres. rewrite (run_resolved H names st Hres), Hset.
    eexists. split; reflexivity.
Qed.

Lemma caching_is_unobservable_witness :
  exists st',
    uname_calls linux_host [buf; NULL] (process_start blank)
    = Returned
        (fst (direct_calls linux_host (resolved linux_host) [buf; NULL]
                (memory (process_start blank)))) st'
    /\ memory st'
       = snd (direct_calls linux_host (resolved linux_host) [buf; NULL]
                (memory (process_start blank))).
Proof.
  apply (caching_is_unobservable linux_host [buf; NULL] (process_start blank)).
  - vm_compute. discriminate.
  - left. reflexivity.
Defined.

(** X5. When resolution fails, a run of one or more calls from a fresh
    process ends at its first call, however many were to follow: exit status
    1, the slot still null, the memory untouched, and the trace just the
    loader requests and the diagnostic line on the standard output. *)
Theorem failed_run_stops_at_first_call (H : host) (names : list ptr)
  (m : mem) :
  resolved H = NULL ->
  names <> [] ->
  uname_calls H names (process_start m)
  = Exited 1
      {| original := NULL;
         memory := m;
         trace := fst (strategy H)
                  ++ [EvWrite stdout (failure_line __func__)] |}.
Proof.
  intros Hres Hnames. destruct names as [|name rest]; [contradiction|].
  rewrite uname_calls_cons.
  assert (Hnull : delegate H (process_start m) = NULL) by exact Hres.
  destruct (uname_fails H name (process_start m) Hnull) as (-> & _ & _).
  reflexivity.
Qed.

Lemma failed_run_stops_at_first_call_witness :
  uname_calls bare_host [buf; buf; buf] (process_start blank)
  = Exited 1
      {| original := NULL;
         memory := blank;
         trace := fst (strategy bare_host)
                  ++ [EvWrite stdout (failure_line __func__)] |}.
Proof.
  apply (failed_run_stops_at_first_call bare_host [buf; buf; buf] blank).
  - reflexivity.
  - discriminate.
Defined.

Lemma uname_returned_step (H : host) (name : ptr) (st : process) (r : Z)
  (st' : process) :
  uname H name st = Returned r st' ->
  original st' <> NULL
  /\ (forall s, written s (trace st') = written s (trace st))
  /\ call_args (trace st') = call_args (trace st) ++ [name].
Proof.
  intros Hrun.
  destruct (Z.eq_dec (delegate H st) NULL) as [Hnull | Hp].
  - destruct (uname_fails H name st Hnull) as (Hexit & _). congruence.
  - destruct (uname_delegates H name st Hp) as (evs & Hret & Hevs).
    rewrite Hret in Hrun. injection Hrun as _ <-. cbn [original trace].
    assert (Hquiet : (forall s, written s evs = []) /\ call_args evs = []).
    { subst evs. destruct (original st =? NULL); [|now split].
      split; [intros s; apply strategy_written | apply strategy_call_args]. }
    destruct Hquiet as [Hw Hc]. repeat split; [exact Hp| |].
    + intros s. rewrite !written_app, Hw. cbn.
      destruct s; cbn; now rewrite !app_nil_r.
    + rewrite !call_args_app, Hc. reflexivity.
Qed.

(** X6. From any state, a run that returns has produced one status per call,
    has written nothing to the standard output or the standard error stream,
    and has passed the callers' arguments to the delegated calls unchanged
    and in order, one delegated call per invocation. *)
Theorem returning_run_is_silent (H : host) (names : list ptr) :
  forall (st : process) (rs : list Z) (st' : process),
    uname_calls H names st = Returned rs st' ->
    List.length rs = List.length names
    /\ written stdout (trace st') = written stdout (trace st)
    /\ written stderr (trace st') = written stderr (trace st)
    /\ call_args (trace st') = call_args (trace st) ++ names.
Proof.
  induction names as [|name rest IH]; intros st rs st' Hrun.
  - injection Hrun as <- <-. rewrite app_nil_r. auto.
  - rewrite uname_calls_cons in Hrun.
    destruct (uname H name st) as [r st1|] eqn:Hfirst; [|discriminate].
    destruct (uname_calls H rest st1) as [rs1 st2|] eqn:Hrest; [|discriminate].
    injection Hrun as <- <-.
    destruct (uname_returned_step H name st r st1 Hfirst) as (_ & Hw & Hc).
    destruct (IH st1 rs1 st2 Hrest) as (Hlen & Hout & Herr & Hargs).
    cbn [List.length]. rewrite Hout, Herr, Hargs, Hc, !Hw, <- app_assoc.
    auto.
Qed.

Lemma returning_run_is_silent_witness :
  List.length [0; -1] = List.length [buf; NULL]
  /\ written stdout
       (trace (state_of (uname_calls linux_host [buf; NULL]
                           (process_start blank))))
     = written stdout (trace (process_start blank))
  /\ written stderr
       (trace (state_of (uname_calls linux_host [buf; NULL]
                           (process_start blank))))
     = written stderr (trace (process_start blank))
  /\ call_args
       (trace (state_of (uname_calls linux_host [buf; NULL]
                           (process_start blank))))
     = call_args (trace (process_start blank)) ++ [buf; NULL].
Proof.
  apply (returning_run_is_silent linux_host [buf; NULL] (process_start blank)
           [0; -1]
           (state_of (uname_calls linux_host [buf; NULL] (process_start blank)))).
  reflexivity.
Defined.

(** X7. Once one call of [uname] has returned, no later call can end the
    process: every further run of calls returns. *)
Theorem no_exit_after_a_return (H : host) (name : ptr) (st : process) (r : Z)
  (st' : process) (names : list ptr) :
  uname H name st = Returned r st' ->
  exists rs st'', uname_calls H names st' = Returned rs st''.
Proof.
  intros Hrun.
  destruct (uname_returned_step H name st r st' Hrun) as (Hset & _).
  rewrite (run_resolved H names st' Hset). eauto.
Qed.

Lemma no_exit_after_a_return_witness :
  exists rs st'',
    uname_calls linux_host [NULL; buf]
      (state_of (uname linux_host buf (process_start blank)))
    = Returned rs st''.
Proof.
  apply (no_exit_after_a_return linux_host buf (process_start blank) 0
           (state_of (uname linux_host buf (process_start blank)))
           [NULL; buf]).
  reflexivity.
Defined.

(** X8. The Linux build never calls [dlopen]: over any run from any state,
    the number of [dlopen] requests in the trace does not change. *)
Theorem linux_build_never_opens (H : host) (names : list ptr) :
  forall st : process,
    os H = Linux ->
    count is_open (trace (state_of (uname_calls H names st)))
    = count is_open (trace st).
Proof.
  induction names as [|name rest IH]; intros st Hos; [reflexivity|].
  assert (Hstrat : count is_open (fst (strategy H)) = 0%nat).
  { unfold strategy. now rewrite Hos. }
  assert (Hfirst : count is_open (trace (state_of (uname H name st)))
                   = count is_open (trace st)).
  { destruct (Z.eq_dec (delegate H st) NULL) as [Hnull | Hp].
    - destruct (uname_fails H name st Hnull) as (-> & _). cbn [state_of trace].
      rewrite !count_app, Hstrat. cbn. lia.
    - destruct (uname_delegates H name st Hp) as (evs & -> & Hevs).
      cbn [state_of trace]. rewrite !count_app.
      assert (Hnone : count is_open evs = 0%nat).
      { subst evs. now destruct (original st =? NULL). }
      rewrite Hnone. cbn. lia. }
  rewrite uname_calls_cons.
  destruct (uname H name st) as [r st1|status st1]; [|exact Hfirst].
  cbn [state_of] in Hfirst. rewrite <- Hfirst, <- (IH st1 Hos).
  now destruct (uname_calls H rest st1).
Qed.

Lemma linux_build_never_opens_witness :
  count is_open
    (trace (state_of (uname_calls linux_host [buf; buf] (process_start blank))))
  = count is_open (trace (process_start blank)).
Proof.
  apply (linux_build_never_opens linux_host [buf; buf] (process_start blank)).
  reflexivity.
Defined.

(** X9. The OS X build does not check the handle [dlopen] returns: when
    [dlopen] gives the null handle, the first call still asks [dlsym] for
    [uname] on that null handle, and what [dlsym] answers decides the call:
    a null answer ends the process with status 1, any other is stored in the
    slot and delegated to. *)
Theorem failed_dlopen_still_looked_up (H : host) (name : ptr) (st : process) :
  os H = Apple ->
  host_dlopen H "libc.dylib" RTLD_NOW = NULL_handle ->
  original st = NULL ->
  exists evs,
    trace (state_of (uname H name st))
    = trace st
      ++ [EvDlopen "libc.dylib" RTLD_NOW; EvDlsym NULL_handle "uname"] ++ evs
    /\ if host_dlsym H NULL_handle "uname" =? NULL
       then uname H name st = Exited 1 (state_of (uname H name st))
            /\ evs = [EvWrite stdout (failure_line __func__)]
       else original (state_of (uname H name st))
            = host_dlsym H NULL_handle "uname"
            /\ evs = [EvCall (host_dlsym H NULL_handle "uname") name].
Proof.
  intros Hos Hopen Hnull.
  assert (Hstrat : strategy H
                   = ([EvDlopen "libc.dylib" RTLD_NOW;
                       EvDlsym NULL_handle "uname"],
                      host_dlsym H NULL_handle "uname")).
  { unfold strategy, strategy_B. now rewrite Hos, Hopen. }
  rewrite (uname_unresolved H name st Hnull). unfold resolved.
  rewrite Hstrat. cbn [fst snd].
  destruct (host_dlsym H NULL_handle "uname" =? NULL); cbn [state_of trace original];
    eexists; (split; [reflexivity|]); auto.
Qed.

Lemma failed_dlopen_still_looked_up_witness :
  exists evs,
    trace (state_of (uname apple_bare_host buf (process_start blank)))
    = trace (process_start blank)
      ++ [EvDlopen "libc.dylib" RTLD_NOW; EvDlsym NULL_handle "uname"] ++ evs
    /\ if host_dlsym apple_bare_host NULL_handle "uname" =? NULL
       then uname apple_bare_host buf (process_start blank)
            = Exited 1 (state_of (uname apple_bare_host buf (process_start blank)))
            /\ evs = [EvWrite stdout (failure_line __func__)]
       else original (state_of (uname apple_bare_host buf (process_start blank)))
            = host_dlsym apple_bare_host NULL_handle "uname"
            /\ evs = [EvCall (host_dlsym apple_bare_host NULL_handle "uname") buf].
Proof.
  apply (failed_dlopen_still_looked_up apple_bare_host buf (process_start blank));
    reflexivity.
Defined.
